(** * lambda-forge: the live log tab widget [CloudWatchLogs]

    A shallow embedding of
    [lambda_forge/logs/tui/ui/widgets/cloudwatch_log.py] and the properties
    of its settled / pending bookkeeping.

    Vocabulary of the design document against the names of the code:
    - settled      is [self.logs];
    - pending      is [self.new_logs];
    - display list is [self.log_list._options];
    - active       is [self.parent_tab.id == self.tabbed_content.active];
    - poll/absorb  is [update_logs];
    - flush        is [reset_logs];
    - badge/label  is [update_tab_label].

    The second part embeds the commands of [lambda_forge/cli.py] as the
    sequences of builder calls they make. *)

From Stdlib Require Import ZArith DecimalString.
From stdpp Require Import base tactics list strings gmap sorting.

(** ** Data model *)

(** Modelled from the spec: the record type of the log API
    ([api/forge_logs], not part of the widget file).  The widget only ever
    reads [log.is_error]. *)
Record LogEntry : Type := mkLogEntry {
  timestamp : Z;
  message : string;
  is_error : bool
}.

#[global] Instance LogEntry_eq_dec : EqDecision LogEntry.
Proof. solve_decision. Defined.

(** A fragment of [rich.text.Text]: a text is the sequence of its styled
    pieces, [+] is concatenation and the truth value of a text is that of
    its length. *)
Module Rich.

Inductive Style : Type :=
| NoStyle
| ComponentStyle (cls : string).

Definition Text : Type := list (string * Style).

(** [Text()] *)
Definition empty : Text := [].

(** [Text(s)] *)
Definition plain (s : string) : Text := [(s, NoStyle)].

(** [Text(s, style=sty)] *)
Definition styled (s : string) (sty : Style) : Text := [(s, sty)].

(** [a + b] *)
Definition add (a b : Text) : Text := a ++ b.

(** [len(t)] *)
Definition len (t : Text) : nat :=
  foldr (fun piece n => String.length piece.1 + n) 0 t.

(** [bool(t)] *)
Definition truthy (t : Text) : bool := negb (len t =? 0).

(** [t.plain] *)
Definition to_string (t : Text) : string :=
  foldr (fun piece s => piece.1 +:+ s) "" t.

(** Pieces of [t] drawn with the component class [cls]. *)
Definition pieces_of (cls : string) (t : Text) : list string :=
  omap (fun piece =>
          match piece.2 with
          | ComponentStyle c => if decide (c = cls) then Some piece.1 else None
          | NoStyle => None
          end) t.

End Rich.

Infix "+++" := Rich.add (at level 60, right associativity).

(** [f"{n}"] for a non-negative integer. *)
Definition format_nat (n : nat) : string :=
  NilZero.string_of_uint (Nat.to_uint n).

(** Writes the widget makes to the user interface, in program order. *)
Inductive UiEvent : Type :=
| LabelSet (label : Rich.Text)       (* tab_pane.label = label *)
| DisplaySet (shown : bool)          (* self.log_list.display = shown *)
| OptionAdded (log : LogEntry).      (* self.log_list.add_option(...) *)

(** The widget together with the pieces of the hosting tab it reads and
    writes.  The widget is mounted in a [TabPane]; the [ValueError] branch of
    [parent_tab] is outside this model. *)
Record State : Type := mkState {
  lambda_name : string;
  logs : list LogEntry;              (* self.logs *)
  new_logs : list LogEntry;          (* self.new_logs *)
  options : list LogEntry;           (* self.log_list._options *)
  display : bool;                    (* self.log_list.display *)
  label : Rich.Text;                 (* tab_pane.label *)
  active : bool;                     (* parent_tab.id == tabbed_content.active *)
  ui : list UiEvent                  (* writes made so far, oldest first *)
}.

Definition set_logs (v : list LogEntry) (st : State) : State :=
  mkState (lambda_name st) v (new_logs st) (options st) (display st)
          (label st) (active st) (ui st).

Definition set_new_logs (v : list LogEntry) (st : State) : State :=
  mkState (lambda_name st) (logs st) v (options st) (display st)
          (label st) (active st) (ui st).

Definition set_active (v : bool) (st : State) : State :=
  mkState (lambda_name st) (logs st) (new_logs st) (options st) (display st)
          (label st) v (ui st).

(** [tab_pane.label = v] *)
Definition set_label (v : Rich.Text) (st : State) : State :=
  mkState (lambda_name st) (logs st) (new_logs st) (options st) (display st)
          v (active st) (ui st ++ [LabelSet v]).

(** [self.log_list.display = v] *)
Definition set_display (v : bool) (st : State) : State :=
  mkState (lambda_name st) (logs st) (new_logs st) (options st) v
          (label st) (active st) (ui st ++ [DisplaySet v]).

(** [self.log_list.add_option(CloudWatchSingleLog(log))] *)
Definition add_option (log : LogEntry) (st : State) : State :=
  mkState (lambda_name st) (logs st) (new_logs st) (options st ++ [log])
          (display st) (label st) (active st) (ui st ++ [OptionAdded log]).

(** ** The widget's methods *)

(** [len([log for log in new_logs if log.is_error])] *)
Definition errors (pending : list LogEntry) : nat :=
  length (filter (fun log => is_error log) pending).

(** [len(new_logs) - errors] *)
Definition non_errors (pending : list LogEntry) : nat :=
  length pending - errors pending.

(** The pair of counts [update_tab_label] derives from [self.new_logs]. *)
Definition badge (st : State) : nat * nat :=
  (errors (new_logs st), non_errors (new_logs st)).

Definition error_marker (n : nat) : Rich.Text :=
  Rich.styled ("⚠ " +:+ format_nat n +:+ " ") (Rich.ComponentStyle "log-error").

Definition info_marker (n : nat) : Rich.Text :=
  Rich.styled ("● " +:+ format_nat n +:+ " ") (Rich.ComponentStyle "log-info").

(** The value [update_tab_label] assigns to the tab's label. *)
Definition render_label (name : string) (pending : list LogEntry) : Rich.Text :=
  let label := Rich.plain name in
  let post_attach := Rich.empty in
  match pending with
  | [] => label
  | _ :: _ =>
      let errors := errors pending in
      let non_errors := non_errors pending in
      let post_attach :=
        if negb (errors =? 0) then post_attach +++ error_marker errors
        else post_attach in
      let post_attach :=
        if negb (non_errors =? 0) then post_attach +++ info_marker non_errors
        else post_attach in
      let post_attach :=
        if Rich.truthy post_attach then Rich.plain " " +++ post_attach
        else post_attach in
      label +++ ((Rich.plain " [ " +++ post_attach) +++ Rich.plain " ] ")
  end.

Definition update_tab_label (st : State) : State :=
  set_label (render_label (lambda_name st) (new_logs st)) st.

Definition reset_logs (st : State) : State :=
  let st := set_logs (logs st ++ new_logs st) st in
  let st := set_new_logs [] st in
  update_tab_label st.

(** What [self.logs_api.get_logs(self.lambda_name)] delivers in one cycle:
    the full record set, or an exception. *)
Inductive Fetch : Type :=
| Fetched (all_logs : list LogEntry)
| FetchError (reason : string).

(** How a call of a method ends. *)
Inductive Outcome : Type :=
| Returned (st : State)
| Raised (reason : string) (st : State).

Definition state_of (o : Outcome) : State :=
  match o with
  | Returned st => st
  | Raised _ st => st
  end.

Definition update_logs (st : State) (fetch : Fetch) : Outcome :=
  match fetch with
  | FetchError reason => Raised reason st
  | Fetched all_logs =>
      let st := set_new_logs (drop (length (logs st)) all_logs) st in
      match new_logs st with
      | [] => Returned st
      | _ :: _ =>
          let st :=
            foldl (fun st log => add_option log (set_display true st)) st
                  (drop (length (options st)) all_logs) in
          let st := update_tab_label st in
          if active st then Returned (reset_logs st) else Returned st
      end
  end.

(** The widget after [__init__], [compose] and [on_mount], in a tab whose
    label and focus are what the host gave it. *)
Definition init (name : string) (label0 : Rich.Text) (active0 : bool) : State :=
  mkState name [] [] [] false label0 active0 [DisplaySet false].

(** ** Operations on a tab *)

(** Modelled from the spec: the host's reaction to a tab switch (the
    activation handler belongs to the application, not to the widget file).
    [activate] gives the tab the focus and flushes with [reset_logs];
    [deactivate] takes the focus away and touches nothing else. *)
Definition activate (st : State) : State := reset_logs (set_active true st).

Definition deactivate (st : State) : State := set_active false st.

Inductive Op : Type :=
| Poll (fetch : Fetch)     (* one tick of the timer: update_logs *)
| Activate
| Deactivate.

(** A timer tick leaves the widget as [update_logs] left it, however the
    call ended. *)
Definition step (st : State) (op : Op) : State :=
  match op with
  | Poll fetch => state_of (update_logs st fetch)
  | Activate => activate st
  | Deactivate => deactivate st
  end.

Definition run (st : State) (ops : list Op) : State := foldl step st ops.

(** The record set of the latest successful fetch of a run, [known]
    before it. *)
Fixpoint fetched (known : list LogEntry) (ops : list Op) : list LogEntry :=
  match ops with
  | [] => known
  | Poll (Fetched all_logs) :: ops => fetched all_logs ops
  | _ :: ops => fetched known ops
  end.

(** The log source only ever appends: every successful fetch of the run
    extends the one before it. *)
Fixpoint append_only (known : list LogEntry) (ops : list Op) : bool :=
  match ops with
  | [] => true
  | Poll (Fetched all_logs) :: ops =>
      bool_decide (known `prefix_of` all_logs) && append_only all_logs ops
  | _ :: ops => append_only known ops
  end.

Definition is_label_write (ev : UiEvent) : bool :=
  match ev with
  | LabelSet _ => true
  | _ => false
  end.

(** Number of assignments to the tab's label among the writes [evs]. *)
Definition label_writes (evs : list UiEvent) : nat :=
  length (filter (fun ev => is_label_write ev) evs).

(** The writes of the display loop of [update_logs] over [shown]. *)
Definition shown_events (shown : list LogEntry) : list UiEvent :=
  flat_map (fun log => [DisplaySet true; OptionAdded log]) shown.

(** Sample entries. *)
Definition entry_a : LogEntry := mkLogEntry 1 "Task timed out" true.
Definition entry_b : LogEntry := mkLogEntry 2 "START RequestId" false.
Definition entry_c : LogEntry := mkLogEntry 3 "END RequestId" false.
Definition entry_d : LogEntry := mkLogEntry 4 "Traceback" true.

(** The polls of a source that delivers [deltas] one after the other on top
    of the entries [known] so far: each fetch returns the whole record set. *)
Fixpoint arrivals (known : list LogEntry) (deltas : list (list LogEntry)) : list Op :=
  match deltas with
  | [] => []
  | delta :: deltas => Poll (Fetched (known ++ delta)) :: arrivals (known ++ delta) deltas
  end.

(** The bookkeeping agrees with the record set [known] fetched so far. *)
Definition in_sync (known : list LogEntry) (st : State) : Prop :=
  logs st ++ new_logs st = known ∧ options st = known.

(** A tab without the focus, freshly mounted. *)
Definition idle_tab : State := init "fn" (Rich.plain "fn") false.

(** [idle_tab] after one tick that fetched two entries. *)
Definition polled_tab : State :=
  state_of (update_logs idle_tab (Fetched [entry_a; entry_b])).

(** A tab that settled [entry_a] while it had the focus, lost the focus and
    then received [entry_b]. *)
Definition backlog_tab : State :=
  run (init "fn" (Rich.plain "fn") true)
      [Poll (Fetched [entry_a]); Deactivate; Poll (Fetched [entry_a; entry_b])].

(** ** The widget in its host *)

(** What the widget reads from the application around it: its parent, as the
    id of the [TabPane] when the parent is one, and the id of the pane that
    [TabbedContent] has active. *)
Record Host : Type := mkHost {
  parent : option string;            (* self.parent, when a TabPane: its id *)
  active_tab : string                (* self.tabbed_content.active *)
}.

(** The message of the [ValueError] of [parent_tab]. *)
Definition not_in_tab_pane : string :=
  "CloudWatchLogs must be a child of a TabPane".

(** [update_tab_label], with the lookup of [self.parent_tab] that opens it. *)
Definition update_tab_label_in (h : Host) (st : State) : Outcome :=
  match parent h with
  | None => Raised not_in_tab_pane st
  | Some _ => Returned (update_tab_label st)
  end.

(** [reset_logs], whose last statement may raise. *)
Definition reset_logs_in (h : Host) (st : State) : Outcome :=
  let st := set_logs (logs st ++ new_logs st) st in
  let st := set_new_logs [] st in
  update_tab_label_in h st.

(** [update_logs], reading the parent and the focus from the host; the field
    [active] of the state is not read. *)
Definition update_logs_in (h : Host) (st : State) (fetch : Fetch) : Outcome :=
  match fetch with
  | FetchError reason => Raised reason st
  | Fetched all_logs =>
      let st := set_new_logs (drop (length (logs st)) all_logs) st in
      match new_logs st with
      | [] => Returned st
      | _ :: _ =>
          let st :=
            foldl (fun st log => add_option log (set_display true st)) st
                  (drop (length (options st)) all_logs) in
          match update_tab_label_in h st with
          | Raised reason st => Raised reason st
          | Returned st =>
              match parent h with
              | None => Raised not_in_tab_pane st
              | Some id =>
                  if bool_decide (id = active_tab h) then reset_logs_in h st
                  else Returned st
              end
          end
      end
  end.

(** [render]: what the widget itself draws, seen while the list is hidden. *)
Definition render : string := "No logs available yet for this lambda function.".

(** A host with the widget in the pane [fn], which has the focus, and a
    host whose widget is not in a pane. *)
Definition focused_host : Host := mkHost (Some "fn") "fn".
Definition bare_host : Host := mkHost None "fn".

(** The label is the rendering of what is pending. *)
Definition labelled (st : State) : Prop :=
  label st = render_label (lambda_name st) (new_logs st).

(** Everything of a state but the record of the writes. *)
Definition view (st : State) :=
  (lambda_name st, logs st, new_logs st, options st, display st, label st, active st).

(** * The command line: [lambda_forge/cli.py] *)

Module Cli.

(** The builders and the [layers] module are not part of this file set; a
    command is embedded as the calls it makes on them, in program order. *)
Inductive Target : Type :=
| ProjectBuilder
| AuthorizerBuilder
| FunctionBuilder
| ServiceBuilder
| LayerBuilder
| layers.

Inductive Arg : Type :=
| Str (s : string)
| Bool (b : bool)
| Int (n : Z)
| PyNone.

Record Call : Type := call {
  target : Target;
  method : string;
  args : list Arg
}.

#[global] Instance Target_eq_dec : EqDecision Target.
Proof. solve_decision. Defined.

#[global] Instance Arg_eq_dec : EqDecision Arg.
Proof. solve_decision. Defined.

#[global] Instance Call_eq_dec : EqDecision Call.
Proof. solve_decision. Defined.

Inductive Exn : Type :=
| UsageError (message : string)      (* click.UsageError *)
| KeyError (key : string)
| BadParameter (value : string).     (* click rejecting a value *)

(** How a command ends, with the calls made until then. *)
Inductive Result : Type :=
| Done (calls : list Call)
| Raised (e : Exn) (calls : list Call).

(** An argument that is a string or [None]. *)
Definition opt (o : option string) : Arg :=
  match o with
  | Some s => Str s
  | None => PyNone
  end.

(** [bool(s)] for a string and for a string or [None]. *)
Definition str_truthy (s : string) : bool := negb (String.eqb s "").

Definition truthy (o : option string) : bool :=
  match o with
  | Some s => str_truthy s
  | None => false
  end.

(** [a or b] where [b] is a string. *)
Definition or_else (a : option string) (b : string) : string :=
  match a with
  | Some s => if str_truthy s then s else b
  | None => b
  end.

(** The calls to [method_name] of [t] among [calls], as their arguments. *)
Definition calls_to (t : Target) (method_name : string) (calls : list Call)
  : list (list Arg) :=
  omap (fun c => if decide (target c = t ∧ method c = method_name)
                 then Some (args c) else None) calls.

(** The calls on [t] among [calls]. *)
Definition chain_of (t : Target) (calls : list Call) : list Call :=
  filter (fun c => target c = t) calls.

(** A chain of calls on a builder is empty, or starts with the call of
    [constructor] and has one [build], its last call. *)
Definition built_once (constructor : string) (chain : list Call) : bool :=
  match chain with
  | [] => true
  | first :: rest =>
      bool_decide (method first = constructor) &&
      bool_decide (last rest = Some (call (target first) "build" [])) &&
      bool_decide (length (filter (fun c => method c = "build") chain) = 1) &&
      bool_decide (length (filter (fun c => method c = constructor) chain) = 1)
  end.

(** The arguments and options of [forge project]. *)
Record ProjectOptions : Type := mkProjectOptions {
  name : string;
  repo_owner : string;
  repo_name : string;
  no_dev : bool;
  no_staging : bool;
  no_prod : bool;
  no_docs : bool;
  public_docs : bool;
  region : string;
  bucket : string;
  coverage : Z
}.

Definition docs_authorizer : list Call :=
  [call AuthorizerBuilder "an_authorizer"
        [Str "docs"; Str "Function used to authorize the docs endpoints";
         Str "authorizers"];
   call AuthorizerBuilder "with_config" [];
   call AuthorizerBuilder "with_main" [];
   call AuthorizerBuilder "with_lambda_stack" [];
   call AuthorizerBuilder "with_unit" [];
   call AuthorizerBuilder "build" []].

Definition create_project (o : ProjectOptions) : list Call :=
  let project_builder :=
    [call ProjectBuilder "a_project" [Str (name o); Bool (negb (no_docs o))]] in
  let project_builder :=
    if negb (no_dev o) then project_builder ++ [call ProjectBuilder "with_dev" []]
    else project_builder in
  let project_builder :=
    if negb (no_staging o)
    then project_builder ++ [call ProjectBuilder "with_staging" []]
    else project_builder in
  let project_builder :=
    if negb (no_prod o) then project_builder ++ [call ProjectBuilder "with_prod" []]
    else project_builder in
  let project_builder :=
    project_builder ++
    [call ProjectBuilder "with_app" [];
     call ProjectBuilder "with_cdk"
          [Str (repo_owner o); Str (repo_name o); Str (region o); Str (bucket o);
           Int (coverage o)];
     call ProjectBuilder "with_gitignore" [];
     call ProjectBuilder "with_pytest_ini" [];
     call ProjectBuilder "with_coveragerc" [];
     call ProjectBuilder "with_requirements" [];
     call ProjectBuilder "with_deploy_stage"
          [Bool (negb (no_docs o)); if public_docs o then PyNone else Str "docs"];
     call ProjectBuilder "build" []] in
  if negb (no_docs o) && negb (public_docs o)
  then project_builder ++ docs_authorizer
  else project_builder.

Definition project (o : ProjectOptions) : Result :=
  if negb (no_docs o) && negb (str_truthy (bucket o))
  then Raised (UsageError
         "You must provide a S3 bucket for the docs or use the flag --no-docs") []
  else Done (create_project o).

Definition create_function
    (name description : string) (http_method belongs endpoint : option string)
    (no_api public : bool) : Result :=
  if negb no_api && negb (truthy http_method)
  then Raised (UsageError
         "You must provide a method for the API Gateway endpoint or use the flag --no-api") []
  else
    let function_builder :=
      [call FunctionBuilder "a_function" [Str name; Str description];
       call FunctionBuilder "with_config" [opt belongs]] in
    let function_builder :=
      if no_api
      then function_builder ++
           [call FunctionBuilder "with_unit" []; call FunctionBuilder "with_main" []]
      else
        let endpoint := or_else endpoint (or_else belongs name) in
        function_builder ++
        [call FunctionBuilder "with_endpoint" [Str endpoint];
         call FunctionBuilder "with_api" [opt http_method; Bool public];
         call FunctionBuilder "with_integration" [opt http_method];
         call FunctionBuilder "with_unit" [];
         call FunctionBuilder "with_main" []] in
    Done (function_builder ++
          [call FunctionBuilder "with_lambda_stack" [];
           call FunctionBuilder "build" []]).

Section Upper.

(** [str.upper] *)
Variable upper : string → string.

Definition function
    (name description : string) (method belongs endpoint : option string)
    (no_api public : bool) : Result :=
  let method :=
    match method with
    | Some m => if str_truthy m then Some (upper m) else None
    | None => None
    end in
  create_function name description method belongs endpoint no_api public.

End Upper.

Definition create_authorizer (name description : string) (default : bool) : list Call :=
  [call AuthorizerBuilder "an_authorizer" [Str name; Str description; Str "authorizers"];
   call AuthorizerBuilder "with_config" [Bool default];
   call AuthorizerBuilder "with_main" [];
   call AuthorizerBuilder "with_unit" [];
   call AuthorizerBuilder "with_lambda_stack" [];
   call AuthorizerBuilder "build" []].

Definition authorizer (name description : string) (default : bool) : Result :=
  Done (create_authorizer name description default).

(** The order of [sorted] on strings. *)
Definition str_le (a b : string) : Prop := String.leb a b.

#[global] Instance str_le_dec : RelDecision str_le.
Proof. intros a b. unfold str_le. apply _. Defined.

Definition sorted (l : list string) : list string := merge_sort str_le l.

Definition AVALABLE_SERVICES : list string :=
  sorted ["sns"; "dynamo_db"; "s3"; "layers"; "state_machine"; "event_bridge";
          "sqs"; "secrets_manager"; "cognito"; "kms"].

(** The dictionary of [create_service]: the builder method bound to each
    key. *)
Definition services : gmap string string :=
  list_to_map
    [("sns", "with_sns"); ("layers", "with_layers"); ("dynamo_db", "with_dynamodb");
     ("s3", "with_s3"); ("event_bridge", "with_event_bridge"); ("sqs", "with_sqs");
     ("secrets_manager", "with_secrets_manager"); ("cognito", "with_cognito");
     ("kms", "with_kms")].

Definition create_service (service : string) : Result :=
  let service_builder := [call ServiceBuilder "a_service" []] in
  match services !! service with
  | None => Raised (KeyError service) service_builder
  | Some with_service =>
      Done (service_builder ++
            [call ServiceBuilder with_service []; call ServiceBuilder "build" []])
  end.

(** The command, behind [click.Choice(AVALABLE_SERVICES)]. *)
Definition service (service : string) : Result :=
  if decide (service ∈ AVALABLE_SERVICES) then create_service service
  else Raised (BadParameter service) [].

Definition create_layer (name description : option string) (install : bool)
  : list Call :=
  let layer_builder :=
    [call LayerBuilder "a_layer" []; call LayerBuilder "with_layers" []] in
  let layer_builder :=
    if truthy name
    then layer_builder ++
         [call LayerBuilder "with_custom_layers"
               [opt name; opt description];
          call layers "create_and_install_package" [opt name]]
    else layer_builder in
  let layer_builder := layer_builder ++ [call LayerBuilder "build" []] in
  if install then layer_builder ++ [call layers "install_all_layers" []]
  else layer_builder.

Definition layer (custom description : option string) (install : bool) : Result :=
  Done (create_layer custom description install).

(** [str.upper] on the letters a to z, for the examples. *)
Fixpoint ascii_upper (s : string) : string :=
  match s with
  | EmptyString => EmptyString
  | String c s =>
      let n := Ascii.nat_of_ascii c in
      String (if (97 <=? n) && (n <=? 122) then Ascii.ascii_of_nat (n - 32) else c)
             (ascii_upper s)
  end.

Definition sample_project : ProjectOptions :=
  mkProjectOptions "shop" "acme" "shop-api" false false false false false
                   "us-east-2" "shop-docs" 80.

End Cli.

(** * Properties *)

(** ** Basic facts about the methods *)

Section Methods.

Implicit Types (st : State) (log : LogEntry) (l all_logs : list LogEntry).

Lemma display_loop l st :
  foldl (fun st log => add_option log (set_display true st)) st l =
  mkState (lambda_name st) (logs st) (new_logs st) (options st ++ l)
          (match l with [] => display st | _ => true end)
          (label st) (active st) (ui st ++ shown_events l).
Proof.
  revert st. induction l as [|log l IH]; intros [n s p o d lb a u]; simpl.
  - by rewrite !app_nil_r.
  - rewrite IH. simpl. f_equal.
    + by rewrite <- app_assoc.
    + by destruct l.
    + by rewrite <- !app_assoc.
Qed.

Lemma update_logs_failed st reason :
  update_logs st (FetchError reason) = Raised reason st.
Proof. reflexivity. Qed.

(** A fetch whose slice past the settled entries is empty. *)
Lemma update_logs_empty st all_logs :
  drop (length (logs st)) all_logs = [] →
  update_logs st (Fetched all_logs) = Returned (set_new_logs [] st).
Proof. intros H. unfold update_logs. simpl. by rewrite H. Qed.

(** A fetch with a non-empty slice past the settled entries. *)
Lemma update_logs_nonempty st all_logs :
  drop (length (logs st)) all_logs ≠ [] →
  let delta := drop (length (logs st)) all_logs in
  let shown := drop (length (options st)) all_logs in
  let st1 :=
    mkState (lambda_name st) (logs st) delta (options st ++ shown)
            (match shown with [] => display st | _ => true end)
            (label st) (active st) (ui st ++ shown_events shown) in
  update_logs st (Fetched all_logs) =
  Returned (if active st then reset_logs (update_tab_label st1)
            else update_tab_label st1).
Proof.
  intros H. unfold update_logs. cbn zeta.
  change (new_logs (set_new_logs ?d st)) with d.
  destruct (drop (length (logs st)) all_logs) as [|x delta] eqn:E; [done|].
  rewrite display_loop. simpl. by destruct (active st).
Qed.

End Methods.

Arguments update_logs : simpl never.
Arguments render_label : simpl never.

(** ** The scenarios of the design document, run on the code *)

(** Scenario A: three entries, two of them errors, reach an inactive tab;
    then the tab is activated. *)
Example scenario_inactive_then_activate :
  badge (step idle_tab (Poll (Fetched [entry_a; entry_b; entry_d]))) = (2, 1) ∧
  logs (step idle_tab (Poll (Fetched [entry_a; entry_b; entry_d]))) = [] ∧
  logs (run idle_tab [Poll (Fetched [entry_a; entry_b; entry_d]); Activate])
  = [entry_a; entry_b; entry_d] ∧
  new_logs (run idle_tab [Poll (Fetched [entry_a; entry_b; entry_d]); Activate]) = [] ∧
  badge (run idle_tab [Poll (Fetched [entry_a; entry_b; entry_d]); Activate]) = (0, 0).
Proof. repeat split. Qed.

(** Scenario B: two entries reach an active tab. *)
Example scenario_active_absorb :
  logs (step (activate idle_tab) (Poll (Fetched [entry_a; entry_b])))
  = [entry_a; entry_b] ∧
  new_logs (step (activate idle_tab) (Poll (Fetched [entry_a; entry_b]))) = [].
Proof. repeat split. Qed.

(** Scenario C on an active tab: the second tick finds nothing new and
    changes nothing. *)
Example scenario_active_second_poll :
  step (step (activate idle_tab) (Poll (Fetched [entry_a; entry_b])))
       (Poll (Fetched [entry_a; entry_b]))
  = step (activate idle_tab) (Poll (Fetched [entry_a; entry_b])).
Proof. reflexivity. Qed.

(** The label of a tab with one pending error and one pending non-error. *)
Example label_of_polled_tab :
  Rich.to_string (label polled_tab) = "fn [  ⚠ 1 ● 1  ] " ∧
  Rich.to_string (label (activate polled_tab)) = "fn".
Proof. split; reflexivity. Qed.

(** On an inactive tab the delta is cut against the settled sequence and so
    repeats what is pending, while the display list is cut against itself:
    the third entry alone is added to it. *)
Example display_cut_by_own_length :
  new_logs (step polled_tab (Poll (Fetched [entry_a; entry_b; entry_c])))
  = [entry_a; entry_b; entry_c] ∧
  options polled_tab = [entry_a; entry_b] ∧
  options (step polled_tab (Poll (Fetched [entry_a; entry_b; entry_c])))
  = [entry_a; entry_b; entry_c].
Proof. repeat split. Qed.

(** ** Counting the pending entries *)

Section Badge.

Implicit Types (st : State) (pending delta : list LogEntry).

Lemma errors_le_length pending : errors pending ≤ length pending.
Proof. apply length_filter. Qed.

Lemma non_errors_count pending :
  non_errors pending = length (filter (fun log => is_error log = false) pending).
Proof.
  unfold non_errors, errors.
  induction pending as [|log pending IH]; [done|].
  pose proof (length_filter (fun log => is_error log) pending).
  destruct (is_error log) eqn:E.
  - rewrite filter_cons_True, filter_cons_False by (rewrite E; done).
    simpl. lia.
  - rewrite filter_cons_False, filter_cons_True by (rewrite E; naive_solver).
    simpl. lia.
Qed.

Lemma errors_count pending :
  errors pending = length (filter (fun log => is_error log = true) pending).
Proof.
  unfold errors. f_equal. apply list_filter_iff. intros log.
  by destruct (is_error log).
Qed.

Lemma badge_total pending : errors pending + non_errors pending = length pending.
Proof. unfold non_errors. pose proof (errors_le_length pending). lia. Qed.

Lemma errors_app pending delta :
  errors (pending ++ delta) = errors pending + errors delta.
Proof. unfold errors. by rewrite filter_app, length_app. Qed.

Lemma non_errors_app pending delta :
  non_errors (pending ++ delta) = non_errors pending + non_errors delta.
Proof. rewrite !non_errors_count. by rewrite filter_app, length_app. Qed.

End Badge.

(** ** Settled entries only grow *)

Section Settled.

Implicit Types (st : State) (op : Op) (ops : list Op).

Lemma run_app st ops1 ops2 : run st (ops1 ++ ops2) = run (run st ops1) ops2.
Proof. apply foldl_app. Qed.

Lemma run_cons st op ops : run st (op :: ops) = run (step st op) ops.
Proof. reflexivity. Qed.

Lemma step_logs_prefix st op : logs st `prefix_of` logs (step st op).
Proof.
  destruct op as [[all_logs|reason]| |]; simpl; try done.
  - destruct (decide (drop (length (logs st)) all_logs = [])) as [E|E].
    + by rewrite update_logs_empty.
    + rewrite update_logs_nonempty by done.
      destruct (active st); simpl; [by apply prefix_app_r|done].
  - by apply prefix_app_r.
Qed.

Lemma run_logs_prefix st ops : logs st `prefix_of` logs (run st ops).
Proof.
  revert st. induction ops as [|op ops IH]; intros st; [done|].
  rewrite run_cons. etrans; [apply step_logs_prefix|apply IH].
Qed.

End Settled.

(** C1.  Whatever operations are applied to a tab, the settled sequence
    [logs] at an earlier time is a prefix of the settled sequence at every
    later time: settled entries are neither removed nor reordered. *)
Theorem settled_append_only (st : State) (earlier later : list Op) :
  logs (run st earlier) `prefix_of` logs (run st (earlier ++ later)).
Proof. rewrite run_app. apply run_logs_prefix. Qed.

(** ** Settled and pending partition the fetched history *)

Section History.

Implicit Types (st : State) (ops : list Op) (known all_logs : list LogEntry).

Lemma prefix_drop known all_logs :
  known `prefix_of` all_logs → all_logs = known ++ drop (length known) all_logs.
Proof. intros [k ->]. by rewrite drop_app_length. Qed.

Lemma in_sync_init name label0 active0 : in_sync [] (init name label0 active0).
Proof. by split. Qed.

Lemma in_sync_poll known all_logs st :
  in_sync known st → known `prefix_of` all_logs →
  in_sync all_logs (state_of (update_logs st (Fetched all_logs))).
Proof.
  intros [Hk Ho] Hp.
  assert (logs st `prefix_of` all_logs) as Hl.
  { etrans; [|exact Hp]. rewrite <- Hk. by apply prefix_app_r. }
  apply prefix_drop in Hl.
  destruct (decide (drop (length (logs st)) all_logs = [])) as [E|E].
  - rewrite update_logs_empty by done. rewrite E, app_nil_r in Hl.
    assert (known = all_logs) as <-.
    { apply prefix_length_eq; [done|].
      rewrite Hl, <- Hk, length_app. lia. }
    split; simpl; [by rewrite app_nil_r|done].
  - rewrite update_logs_nonempty by done.
    assert (options st ++ drop (length (options st)) all_logs = all_logs) as Hs.
    { rewrite Ho. symmetry. by apply prefix_drop. }
    destruct (active st); split; simpl; rewrite ?app_nil_r; congruence.
Qed.

Lemma in_sync_activate known st : in_sync known st → in_sync known (activate st).
Proof. intros [Hk Ho]. split; simpl; [by rewrite app_nil_r|done]. Qed.

Lemma in_sync_deactivate known st : in_sync known st → in_sync known (deactivate st).
Proof. by intros [Hk Ho]. Qed.

Lemma in_sync_run known st ops :
  in_sync known st → append_only known ops = true →
  in_sync (fetched known ops) (run st ops).
Proof.
  revert known st.
  induction ops as [|[[all_logs|reason]| |] ops IH]; intros known st Hs Ha;
    simpl in Ha |- *; [done|..].
  - apply andb_prop in Ha as [Hp Ha]. apply bool_decide_eq_true in Hp.
    apply IH; [|done]. by apply in_sync_poll with known.
  - by apply IH.
  - apply IH; [|done]. by apply in_sync_activate.
  - apply IH; [|done]. by apply in_sync_deactivate.
Qed.

End History.

(** C2.  Over an append-only log source, after every operation the settled
    sequence followed by the pending sequence is the record set fetched so
    far: settled is a prefix of that history, in arrival order, and pending
    is exactly the rest of it. *)
Theorem settled_pending_partition
    (name : string) (label0 : Rich.Text) (active0 : bool) (ops : list Op) :
  append_only [] ops = true →
  let st := run (init name label0 active0) ops in
  let history := fetched [] ops in
  logs st ++ new_logs st = history ∧
  logs st `prefix_of` history ∧
  new_logs st = drop (length (logs st)) history.
Proof.
  intros Ha st history.
  destruct (in_sync_run [] (init name label0 active0) ops) as [Hk _];
    [apply in_sync_init|done|].
  fold st history in Hk. split; [done|]. rewrite <- Hk. split.
  - by apply prefix_app_r.
  - by rewrite drop_app_length.
Qed.

Lemma settled_pending_partition_witness :
  append_only []
    [Poll (Fetched [entry_a]); Activate; Poll (FetchError "timeout");
     Deactivate; Poll (Fetched [entry_a; entry_b; entry_c])] = true ∧
  logs (run idle_tab
          [Poll (Fetched [entry_a]); Activate; Poll (FetchError "timeout");
           Deactivate; Poll (Fetched [entry_a; entry_b; entry_c])])
  ++ new_logs (run idle_tab
          [Poll (Fetched [entry_a]); Activate; Poll (FetchError "timeout");
           Deactivate; Poll (Fetched [entry_a; entry_b; entry_c])])
  = [entry_a; entry_b; entry_c].
Proof.
  split; [reflexivity|].
  apply (settled_pending_partition "fn" (Rich.plain "fn") false
    [Poll (Fetched [entry_a]); Activate; Poll (FetchError "timeout");
     Deactivate; Poll (Fetched [entry_a; entry_b; entry_c])]).
  reflexivity.
Defined.

(** ** Absorbing while the tab is not focused *)

Section Inactive.

Implicit Types (st : State) (delta : list LogEntry).

(** One cycle: the source delivers [delta] on top of what the tab holds. *)
Lemma inactive_cycle st delta :
  active st = false → delta ≠ [] →
  let st' := step st (Poll (Fetched (logs st ++ new_logs st ++ delta))) in
  logs st' = logs st ∧ new_logs st' = new_logs st ++ delta ∧ active st' = false.
Proof.
  intros Ha Hd. simpl.
  assert (drop (length (logs st)) (logs st ++ new_logs st ++ delta)
          = new_logs st ++ delta) as E by by rewrite drop_app_length.
  rewrite update_logs_nonempty.
  - rewrite Ha, E. by simpl.
  - rewrite E. by destruct (new_logs st), delta.
Qed.

End Inactive.

(** C3.  While the tab is not active, every non-empty delta the source
    delivers leaves the settled sequence [logs] unchanged and ends up behind
    the entries already pending; over consecutive cycles the deltas pile up
    in [new_logs] in the order of the calls, and the counts of the badge add
    up. *)
Theorem inactive_absorb_accumulates (st : State) (deltas : list (list LogEntry)) :
  active st = false →
  Forall (fun delta => delta ≠ []) deltas →
  let st' := run st (arrivals (logs st ++ new_logs st) deltas) in
  logs st' = logs st ∧
  new_logs st' = new_logs st ++ concat deltas ∧
  active st' = false ∧
  badge st' = ((badge st).1 + errors (concat deltas),
               (badge st).2 + non_errors (concat deltas)).
Proof.
  intros Ha Hd.
  enough (logs (run st (arrivals (logs st ++ new_logs st) deltas)) = logs st ∧
          new_logs (run st (arrivals (logs st ++ new_logs st) deltas))
          = new_logs st ++ concat deltas ∧
          active (run st (arrivals (logs st ++ new_logs st) deltas)) = false)
    as (Hl & Hn & Ha').
  { cbn zeta. unfold badge. rewrite Hn, errors_app, non_errors_app. done. }
  revert st Ha.
  induction Hd as [|delta deltas Hne _ IH]; intros st Ha; cbn [arrivals concat].
  - by rewrite app_nil_r.
  - destruct (inactive_cycle st delta Ha Hne) as (Hl & Hn & Ha').
    rewrite run_cons, <- (app_assoc (logs st)).
    set (st1 := step st (Poll (Fetched (logs st ++ new_logs st ++ delta)))) in *.
    specialize (IH st1 Ha'). rewrite Hl, Hn in IH. destruct IH as (-> & -> & ->).
    by rewrite <- app_assoc.
Qed.

Lemma inactive_absorb_accumulates_witness :
  logs (run idle_tab [Poll (Fetched [entry_a; entry_b]);
                      Poll (Fetched [entry_a; entry_b; entry_c])]) = [] ∧
  new_logs (run idle_tab [Poll (Fetched [entry_a; entry_b]);
                          Poll (Fetched [entry_a; entry_b; entry_c])])
  = [entry_a; entry_b; entry_c] ∧
  active (run idle_tab [Poll (Fetched [entry_a; entry_b]);
                        Poll (Fetched [entry_a; entry_b; entry_c])]) = false ∧
  badge (run idle_tab [Poll (Fetched [entry_a; entry_b]);
                       Poll (Fetched [entry_a; entry_b; entry_c])]) = (1, 2).
Proof.
  apply (inactive_absorb_accumulates idle_tab [[entry_a; entry_b]; [entry_c]]).
  - reflexivity.
  - repeat constructor; discriminate.
Defined.

(** ** Flushing *)

Section Flush.

Implicit Types (st : State) (op : Op) (ops : list Op).

(** Invariant I2 of the design: a focused tab has nothing pending. *)
Lemma step_active_no_pending st op :
  (active st = true → new_logs st = []) →
  active (step st op) = true → new_logs (step st op) = [].
Proof.
  intros Hi. destruct op as [[all_logs|reason]| |]; simpl; try done.
  destruct (decide (drop (length (logs st)) all_logs = [])) as [E|E].
  - by rewrite update_logs_empty.
  - rewrite update_logs_nonempty by done. by destruct (active st).
Qed.

Lemma run_active_no_pending st ops :
  (active st = true → new_logs st = []) →
  active (run st ops) = true → new_logs (run st ops) = [].
Proof.
  revert st. induction ops as [|op ops IH]; intros st Hi; [done|].
  rewrite run_cons. apply IH. by apply step_active_no_pending.
Qed.

End Flush.

(** C4.  Right after [activate] nothing is pending and the entries that
    were pending sit, in their order, at the tail of the settled sequence;
    and in every state reached from a fresh widget or from a state that
    has nothing pending while active, an active tab has nothing pending. *)
Theorem flush_on_activate (st : State) :
  (new_logs (activate st) = [] ∧
   logs (activate st) = logs st ++ new_logs st ∧
   active (activate st) = true) ∧
  (∀ ops name label0 active0,
     let st' := run (init name label0 active0) ops in
     active st' = true → new_logs st' = []) ∧
  (∀ ops,
     (active st = true → new_logs st = []) →
     active (run st ops) = true → new_logs (run st ops) = []).
Proof.
  split; [done|]. split.
  - intros ops name label0 active0. by apply run_active_no_pending.
  - intros ops. apply run_active_no_pending.
Qed.

Lemma flush_on_activate_witness :
  new_logs polled_tab = [entry_a; entry_b] ∧
  new_logs (activate polled_tab) = [] ∧
  logs (activate polled_tab) = [entry_a; entry_b] ∧
  new_logs (run (activate polled_tab)
                [Poll (Fetched [entry_a; entry_b; entry_c])]) = [].
Proof.
  split; [reflexivity|].
  destruct (flush_on_activate polled_tab) as ((Hp & Hl & Ha) & _ & _).
  split; [exact Hp|]. split; [exact Hl|].
  destruct (flush_on_activate (activate polled_tab)) as (_ & _ & Hi).
  apply Hi; [intros _; exact Hp|reflexivity].
Defined.

(** ** Rendering the badge *)

(** C5.  The badge derived by [update_tab_label] is the pair (number of
    pending entries with [is_error] true, number of pending entries with
    [is_error] false), and deriving and rendering it leaves the tab's
    bookkeeping (settled, pending, active, display list) as it was. *)
Theorem badge_accuracy (st : State) :
  badge st =
    (length (filter (fun log => is_error log = true) (new_logs st)),
     length (filter (fun log => is_error log = false) (new_logs st))) ∧
  logs (update_tab_label st) = logs st ∧
  new_logs (update_tab_label st) = new_logs st ∧
  active (update_tab_label st) = active st ∧
  options (update_tab_label st) = options st ∧
  display (update_tab_label st) = display st ∧
  badge (update_tab_label st) = badge st.
Proof.
  split; [|done]. unfold badge.
  by rewrite errors_count, non_errors_count.
Qed.

(** C9.  The label [update_tab_label] writes is the function's name alone
    when both counts of the badge are zero; otherwise the name is followed
    by a bracketed suffix that holds the error marker exactly when the error
    count is positive and the non-error marker exactly when the non-error
    count is positive. *)
Theorem label_rendering (st : State) :
  let e := (badge st).1 in
  let n := (badge st).2 in
  let rendered := label (update_tab_label st) in
  (if (e =? 0) && (n =? 0) then rendered = Rich.plain (lambda_name st)
   else rendered =
          Rich.plain (lambda_name st) +++ Rich.plain " [ " +++ Rich.plain " " +++
          (if 0 <? e then error_marker e else Rich.empty) +++
          (if 0 <? n then info_marker n else Rich.empty) +++
          Rich.plain " ] ") ∧
  Rich.pieces_of "log-error" rendered =
    (if 0 <? e then [("⚠ " +:+ format_nat e +:+ " ")%string] else []) ∧
  Rich.pieces_of "log-info" rendered =
    (if 0 <? n then [("● " +:+ format_nat n +:+ " ")%string] else []).
Proof.
  unfold badge. simpl. unfold render_label.
  pose proof (badge_total (new_logs st)) as Ht.
  destruct (new_logs st) as [|log pending] eqn:E.
  - by compute.
  - set (e := errors (log :: pending)) in *.
    set (n := non_errors (log :: pending)) in *.
    simpl in Ht.
    destruct e as [|e], n as [|n]; [lia|by compute..].
Qed.

(** ** The display list *)

(** C10.  In a cycle whose delta is not empty the fetched entries past the
    current length of the display list are appended to it, and the list is
    shown, whether the tab is active or not; the focus only decides whether
    the delta is settled or kept pending.  The display list is cut against
    its own length, not against the settled sequence. *)
Theorem display_list_append (st : State) (all_logs : list LogEntry) (focus : bool) :
  drop (length (logs st)) all_logs ≠ [] →
  let delta := drop (length (logs st)) all_logs in
  let shown := drop (length (options st)) all_logs in
  let st' := state_of (update_logs (set_active focus st) (Fetched all_logs)) in
  options st' = options st ++ shown ∧
  display st' = (match shown with [] => display st | _ => true end) ∧
  (∀ fresh, all_logs = options st ++ fresh → options st' = options st ++ fresh) ∧
  (if focus then logs st' = logs st ++ delta ∧ new_logs st' = []
   else logs st' = logs st ∧ new_logs st' = delta).
Proof.
  intros Hd delta shown st'. subst st' delta shown.
  rewrite update_logs_nonempty by done.
  change (active (set_active focus st)) with focus.
  assert (∀ fresh, all_logs = options st ++ fresh →
                   drop (length (options st)) all_logs = fresh) as Hf.
  { intros fresh ->. by rewrite drop_app_length. }
  destruct focus; simpl; repeat split; try done;
    intros fresh Hfresh; by rewrite (Hf fresh Hfresh).
Qed.

Lemma display_list_append_witness :
  options (state_of (update_logs (set_active false (init "fn" (Rich.plain "fn") true))
                                 (Fetched [entry_a; entry_b])))
  = [entry_a; entry_b] ∧
  options (state_of (update_logs (set_active true (init "fn" (Rich.plain "fn") true))
                                 (Fetched [entry_a; entry_b])))
  = [entry_a; entry_b].
Proof.
  split.
  - apply (display_list_append (init "fn" (Rich.plain "fn") true)
             [entry_a; entry_b] false). discriminate.
  - apply (display_list_append (init "fn" (Rich.plain "fn") true)
             [entry_a; entry_b] true). discriminate.
Defined.

(** ** Cycles with an empty delta *)

Lemma set_new_logs_same (st : State) : set_new_logs (new_logs st) st = st.
Proof. by destruct st. Qed.

(** Outside the contract of the log source (a fetch that returns less than
    what was fetched before): [backlog_tab] holds one settled and one pending
    entry; a fetch of the settled entry alone has an empty delta and leaves
    the tab with nothing pending. *)
Lemma empty_delta_clears_pending :
  logs backlog_tab = [entry_a] ∧
  new_logs backlog_tab = [entry_b] ∧
  drop (length (logs backlog_tab)) [entry_a] = [] ∧
  new_logs (state_of (update_logs backlog_tab (Fetched [entry_a]))) = [] ∧
  update_logs backlog_tab (Fetched [entry_a]) ≠ Returned backlog_tab.
Proof. repeat split; try reflexivity. discriminate. Qed.

(** In any state, a cycle whose delta [all_logs[len(logs):]] is empty
    leaves the settled sequence, the display list, the label and the focus
    as they were and writes nothing to the interface; the pending sequence
    becomes that empty delta.  So the state is unchanged when nothing was
    pending, which is the case whenever the fetch extends what the tab
    holds. *)
Lemma empty_delta_cycle (st : State) (all_logs : list LogEntry) :
  drop (length (logs st)) all_logs = [] →
  let st' := state_of (update_logs st (Fetched all_logs)) in
  update_logs st (Fetched all_logs) = Returned st' ∧
  logs st' = logs st ∧
  new_logs st' = [] ∧
  active st' = active st ∧
  options st' = options st ∧
  display st' = display st ∧
  label st' = label st ∧
  ui st' = ui st ∧
  (new_logs st = [] → st' = st) ∧
  (logs st ++ new_logs st `prefix_of` all_logs → st' = st).
Proof.
  intros E st'. subst st'. rewrite update_logs_empty by done. simpl.
  repeat split.
  - intros <-. apply set_new_logs_same.
  - intros [k Hk]. rewrite Hk, <- !app_assoc, drop_app_length in E.
    apply app_eq_nil in E as [<- _]. apply set_new_logs_same.
Qed.

Lemma empty_delta_cycle_witness :
  state_of (update_logs (run idle_tab [Poll (Fetched [entry_a]); Activate])
                        (Fetched [entry_a]))
  = run idle_tab [Poll (Fetched [entry_a]); Activate].
Proof.
  apply (empty_delta_cycle (run idle_tab [Poll (Fetched [entry_a]); Activate])
           [entry_a]); reflexivity.
Defined.




(** ** The poll cycle *)

(** C7, as stated, fails on a tab without the focus.  The first tick of
    [idle_tab] fetches two entries, yet the length of the settled sequence,
    from which the next delta is cut, stays 0; a second tick that fetches
    the same two entries cuts the same non-empty delta and writes the label
    once more. *)
Lemma inactive_poll_keeps_baseline :
  length (logs polled_tab) = 0 ∧
  new_logs polled_tab = [entry_a; entry_b] ∧
  drop (length (logs polled_tab)) [entry_a; entry_b] = [entry_a; entry_b] ∧
  label_writes (ui polled_tab) = 1 ∧
  label_writes (ui (state_of (update_logs polled_tab (Fetched [entry_a; entry_b])))) = 2 ∧
  update_logs polled_tab (Fetched [entry_a; entry_b]) ≠ Returned polled_tab.
Proof. repeat split; try reflexivity. discriminate. Qed.

Lemma label_writes_app (evs1 evs2 : list UiEvent) :
  label_writes (evs1 ++ evs2) = label_writes evs1 + label_writes evs2.
Proof. unfold label_writes. by rewrite filter_app, length_app. Qed.

Lemma label_writes_label (t : Rich.Text) : label_writes [LabelSet t] = 1.
Proof. reflexivity. Qed.

Lemma label_writes_shown (shown : list LogEntry) :
  label_writes (shown_events shown) = 0.
Proof. by induction shown. Qed.

(** C7, amended.  Every cycle that fetches [all_logs] cuts
    [delta = all_logs[len(logs):]] and makes it the pending sequence.  With
    an empty delta nothing else happens; this is the case whenever
    [len(all_logs) <= len(logs)].  With a non-empty delta the display list is
    extended, the label is written, and then: on an active tab the delta is
    settled, so that [len(logs) = len(all_logs)] and nothing is pending; on
    an inactive tab the settled sequence, and with it the base of the next
    cut, stays as it was. *)
Theorem poll_cycle (st : State) (all_logs : list LogEntry) :
  let delta := drop (length (logs st)) all_logs in
  let st' := state_of (update_logs st (Fetched all_logs)) in
  update_logs st (Fetched all_logs) = Returned st' ∧
  active st' = active st ∧
  (if length all_logs <=? length (logs st) then delta = [] else delta ≠ []) ∧
  match delta with
  | [] =>
      logs st' = logs st ∧ new_logs st' = [] ∧ options st' = options st ∧
      display st' = display st ∧ label st' = label st ∧ ui st' = ui st
  | _ :: _ =>
      options st' = options st ++ drop (length (options st)) all_logs ∧
      label st' = render_label (lambda_name st) (new_logs st') ∧
      label_writes (ui st) < label_writes (ui st') ∧
      if active st
      then logs st' = logs st ++ delta ∧ length (logs st') = length all_logs ∧
           new_logs st' = []
      else logs st' = logs st ∧ new_logs st' = delta
  end.
Proof.
  intros delta st'. subst st'.
  assert (if length all_logs <=? length (logs st) then delta = [] else delta ≠ [])
    as Hlen.
  { subst delta. destruct (Nat.leb_spec (length all_logs) (length (logs st))).
    - by apply drop_ge.
    - intros E%(f_equal length). rewrite length_drop in E. simpl in E. lia. }
  destruct (decide (delta = [])) as [E|E].
  - subst delta. rewrite update_logs_empty by done. rewrite E in Hlen |- *. done.
  - subst delta. rewrite update_logs_nonempty by done.
    destruct (drop (length (logs st)) all_logs) as [|log delta] eqn:Hd; [done|].
    assert (length all_logs = length (logs st) + length (log :: delta)) as Hl.
    { rewrite <- Hd, length_drop.
      destruct (length all_logs <=? length (logs st)) eqn:Hle; [done|].
      apply Nat.leb_gt in Hle. lia. }
    destruct (active st); simpl;
      rewrite ?label_writes_app, ?label_writes_shown, ?label_writes_label,
        ?length_app;
      simpl in *; repeat split; try done; try lia.
Qed.

Lemma poll_cycle_witness :
  logs (state_of (update_logs (set_active true idle_tab) (Fetched [entry_a; entry_b])))
  = [entry_a; entry_b] ∧
  logs (state_of (update_logs idle_tab (Fetched [entry_a; entry_b]))) = [].
Proof.
  split.
  - apply (poll_cycle (set_active true idle_tab) [entry_a; entry_b]).
  - apply (poll_cycle idle_tab [entry_a; entry_b]).
Defined.

(** ** A fetch that fails *)

(** C8, as stated, fails: when the fetch raises, [update_logs] does not
    complete as a cycle that did nothing; the exception leaves the method. *)
Lemma failed_fetch_raises :
  update_logs idle_tab (FetchError "timeout") = Raised "timeout" idle_tab ∧
  update_logs idle_tab (FetchError "timeout") ≠ Returned idle_tab.
Proof. split; [reflexivity|discriminate]. Qed.

(** C8, amended.  When the fetch raises, [update_logs] changes nothing
    (settled, pending, focus, display list, label and the writes to the
    interface are those of before, so no delta is absorbed and the base of
    the next cut is unchanged) and the exception propagates to the caller of
    [update_logs]; a later tick starts from the unchanged state. *)
Theorem failed_fetch_cycle (st : State) (reason : string) (later : list Op) :
  update_logs st (FetchError reason) = Raised reason st ∧
  step st (Poll (FetchError reason)) = st ∧
  run st (Poll (FetchError reason) :: later) = run st later.
Proof. done. Qed.

(** * Further properties of the widget *)

(** ** The widget and its parent *)

(** X1.  In a [TabPane], [update_logs] and [reset_logs] never raise the
    [ValueError] of [parent_tab]: they behave as the methods over the focus
    flag, the flag being [parent_tab.id == tabbed_content.active]. *)
Theorem mounted_methods_agree (h : Host) (id : string) (st : State) (fetch : Fetch) :
  parent h = Some id →
  active st = bool_decide (id = active_tab h) →
  update_logs_in h st fetch = update_logs st fetch ∧
  reset_logs_in h st = Returned (reset_logs st) ∧
  update_tab_label_in h st = Returned (update_tab_label st).
Proof.
  intros Hp Ha. unfold update_logs_in, update_logs, reset_logs_in, update_tab_label_in.
  rewrite Hp. repeat split.
  destruct fetch as [all_logs|reason]; [|done]. cbn zeta.
  change (new_logs (set_new_logs ?d st)) with d.
  destruct (drop (length (logs st)) all_logs) as [|log delta]; [done|].
  rewrite !display_loop. simpl. rewrite Ha.
  by destruct (bool_decide (id = active_tab h)).
Qed.

Lemma mounted_methods_agree_witness :
  update_logs_in focused_host (set_active true idle_tab) (Fetched [entry_a])
  = update_logs (set_active true idle_tab) (Fetched [entry_a]).
Proof.
  apply (mounted_methods_agree focused_host "fn" (set_active true idle_tab)
           (Fetched [entry_a])); reflexivity.
Defined.

(** X2.  Outside a [TabPane] the label is never written.  [reset_logs]
    raises the [ValueError] after it has moved the pending entries to the
    settled ones.  [update_logs] returns when the delta is empty; with a
    non-empty delta it raises after it has stored the delta as pending and
    extended the display list, and settles nothing. *)
Theorem unmounted_methods_raise (h : Host) (st : State) (all_logs : list LogEntry) :
  parent h = None →
  update_tab_label_in h st = Raised not_in_tab_pane st ∧
  (∃ st', reset_logs_in h st = Raised not_in_tab_pane st' ∧
          logs st' = logs st ++ new_logs st ∧ new_logs st' = [] ∧
          label st' = label st ∧ ui st' = ui st) ∧
  match drop (length (logs st)) all_logs with
  | [] => update_logs_in h st (Fetched all_logs) = Returned (set_new_logs [] st)
  | log :: delta =>
      ∃ st', update_logs_in h st (Fetched all_logs) = Raised not_in_tab_pane st' ∧
             logs st' = logs st ∧ new_logs st' = log :: delta ∧
             options st' = options st ++ drop (length (options st)) all_logs ∧
             label st' = label st ∧
             label_writes (ui st') = label_writes (ui st)
  end.
Proof.
  intros Hp. unfold update_logs_in, reset_logs_in, update_tab_label_in.
  rewrite Hp. split; [done|]. split; [by eexists|].
  cbn zeta. change (new_logs (set_new_logs ?d st)) with d.
  destruct (drop (length (logs st)) all_logs) as [|log delta] eqn:E; [done|].
  rewrite display_loop. eexists. split; [done|]. simpl.
  by rewrite label_writes_app, label_writes_shown, Nat.add_0_r.
Qed.

Lemma unmounted_methods_raise_witness :
  update_tab_label_in bare_host polled_tab = Raised not_in_tab_pane polled_tab.
Proof.
  apply (unmounted_methods_raise bare_host polled_tab []). reflexivity.
Defined.

(** ** The display list over a run *)

Section Display.

Implicit Types (st : State) (op : Op) (ops : list Op).

Lemma step_options_prefix st op : options st `prefix_of` options (step st op).
Proof.
  destruct op as [[all_logs|reason]| |]; simpl; try done.
  destruct (decide (drop (length (logs st)) all_logs = [])) as [E|E].
  - by rewrite update_logs_empty.
  - rewrite update_logs_nonempty by done.
    destruct (active st); simpl; by apply prefix_app_r.
Qed.

Lemma step_display st op :
  display st = match options st with [] => false | _ => true end →
  display (step st op) = match options (step st op) with [] => false | _ => true end.
Proof.
  intros Hi. destruct op as [[all_logs|reason]| |]; simpl; try done.
  destruct (decide (drop (length (logs st)) all_logs = [])) as [E|E].
  - by rewrite update_logs_empty.
  - rewrite update_logs_nonempty by done.
    assert (display
              (mkState (lambda_name st) (logs st) (drop (length (logs st)) all_logs)
                 (options st ++ drop (length (options st)) all_logs)
                 (match drop (length (options st)) all_logs with
                  | [] => display st | _ => true end)
                 (label st) (active st)
                 (ui st ++ shown_events (drop (length (options st)) all_logs)))
            = match options st ++ drop (length (options st)) all_logs with
              | [] => false | _ => true end) as Hd.
    { simpl. destruct (drop (length (options st)) all_logs) as [|x shown].
      - by rewrite app_nil_r.
      - by destruct (options st). }
    by destruct (active st).
Qed.

Lemma step_counted st op :
  length (logs st) + length (new_logs st) ≤ length (options st) →
  length (logs (step st op)) + length (new_logs (step st op))
  ≤ length (options (step st op)).
Proof.
  intros Hi. destruct op as [[all_logs|reason]| |]; simpl;
    rewrite ?length_app; simpl; try lia.
  destruct (decide (drop (length (logs st)) all_logs = [])) as [E|E].
  - rewrite update_logs_empty by done. simpl. lia.
  - rewrite update_logs_nonempty by done.
    assert (length (logs st) < length all_logs).
    { destruct (decide (length (logs st) < length all_logs)); [done|].
      destruct E. apply drop_ge. lia. }
    destruct (active st); simpl; rewrite !length_app, !length_drop; simpl; lia.
Qed.

End Display.

(** X3.  From a fresh widget and whatever the fetches return, the list is
    shown exactly when it holds an entry; until then the widget shows its
    [render] text. *)
Theorem list_shown_when_filled
    (name : string) (label0 : Rich.Text) (active0 : bool) (ops : list Op) :
  display (run (init name label0 active0) ops)
  = match options (run (init name label0 active0) ops) with
    | [] => false
    | _ :: _ => true
    end.
Proof.
  assert (∀ st, display st = match options st with [] => false | _ => true end →
                display (run st ops)
                = match options (run st ops) with [] => false | _ => true end) as H.
  { induction ops as [|op ops IH]; intros st Hi; [done|].
    rewrite run_cons. apply IH. by apply step_display. }
  by apply H.
Qed.

(** X4.  Entries are never taken off the display list nor reordered: the
    list at an earlier time is a prefix of the list at any later time,
    whatever the operations and whatever the fetches return. *)
Theorem display_list_append_only (st : State) (earlier later : list Op) :
  options (run st earlier) `prefix_of` options (run st (earlier ++ later)).
Proof.
  rewrite run_app. generalize (run st earlier). clear st earlier.
  induction later as [|op later IH]; intros st; [done|].
  rewrite run_cons. etrans; [apply step_options_prefix|apply IH].
Qed.

(** A count only: from a fresh widget and whatever the fetches return, the
    display list is at least as long as the settled and the pending sequence
    together.  Which entries it holds is the matter of the next theorem. *)
Lemma counted_entries_are_displayed
    (name : string) (label0 : Rich.Text) (active0 : bool) (ops : list Op) :
  length (logs (run (init name label0 active0) ops))
  + length (new_logs (run (init name label0 active0) ops))
  ≤ length (options (run (init name label0 active0) ops)).
Proof.
  assert (∀ st, length (logs st) + length (new_logs st) ≤ length (options st) →
                length (logs (run st ops)) + length (new_logs (run st ops))
                ≤ length (options (run st ops))) as H.
  { induction ops as [|op ops IH]; intros st Hi; [done|].
    rewrite run_cons. apply IH. by apply step_counted. }
  apply H. simpl. lia.
Qed.

(** X5.  Over an append-only source, from a fresh widget, the display list
    is at every moment the settled sequence followed by the pending one,
    which is the record set fetched last: every entry counted as settled or
    pending is on the display list, once and in arrival order. *)
Theorem display_list_holds_counted
    (name : string) (label0 : Rich.Text) (active0 : bool) (ops : list Op) :
  append_only [] ops = true →
  let st := run (init name label0 active0) ops in
  options st = logs st ++ new_logs st ∧
  options st = fetched [] ops.
Proof.
  intros Ha st.
  destruct (in_sync_run [] (init name label0 active0) ops) as [Hk Ho];
    [apply in_sync_init|done|]. fold st in Hk, Ho. by rewrite Hk, Ho.
Qed.

Lemma display_list_holds_counted_witness :
  options (run idle_tab [Poll (Fetched [entry_a; entry_b]); Activate; Deactivate;
                         Poll (Fetched [entry_a; entry_b; entry_c])])
  = logs (run idle_tab [Poll (Fetched [entry_a; entry_b]); Activate; Deactivate;
                        Poll (Fetched [entry_a; entry_b; entry_c])])
    ++ new_logs (run idle_tab [Poll (Fetched [entry_a; entry_b]); Activate; Deactivate;
                               Poll (Fetched [entry_a; entry_b; entry_c])]).
Proof.
  apply (display_list_holds_counted "fn" (Rich.plain "fn") false
           [Poll (Fetched [entry_a; entry_b]); Activate; Deactivate;
            Poll (Fetched [entry_a; entry_b; entry_c])]).
  reflexivity.
Defined.

(** ** Fetching the same record set again *)

Section Repeat.

Implicit Types (st : State) (all_logs : list LogEntry).

Lemma set_new_logs_nil_view st : new_logs st = [] → set_new_logs [] st = st.
Proof. intros <-. by destruct st. Qed.

Lemma drop_past_own_length (shown : list LogEntry) all_logs :
  drop (length (shown ++ drop (length shown) all_logs)) all_logs = [].
Proof. apply drop_ge. rewrite length_app, length_drop. lia. Qed.

Lemma nonempty_slice_length st all_logs :
  drop (length (logs st)) all_logs ≠ [] →
  length (logs st ++ drop (length (logs st)) all_logs) = length all_logs.
Proof.
  intros E. rewrite length_app, length_drop.
  destruct (decide (length (logs st) < length all_logs)); [lia|].
  destruct E. apply drop_ge. lia.
Qed.

End Repeat.

(** X6.  A tick that fetches the record set of the tick before it changes
    nothing of the widget: settled, pending, display list, label and focus
    stay as the first tick left them.  If the first tick left nothing
    pending, the second does not even write to the interface. *)
Theorem repeated_fetch_idempotent (st : State) (fetch : Fetch) :
  view (step (step st (Poll fetch)) (Poll fetch)) = view (step st (Poll fetch)) ∧
  (new_logs (step st (Poll fetch)) = [] →
   step (step st (Poll fetch)) (Poll fetch) = step st (Poll fetch)).
Proof.
  destruct fetch as [all_logs|reason]; [|done]. simpl.
  destruct (decide (drop (length (logs st)) all_logs = [])) as [E|E].
  - rewrite (update_logs_empty st) by done. simpl.
    rewrite (update_logs_empty (set_new_logs [] st)) by exact E. done.
  - rewrite (update_logs_nonempty st) by done.
    destruct (active st) eqn:Ha; simpl.
    + rewrite update_logs_empty.
      * done.
      * simpl. apply drop_ge. by rewrite nonempty_slice_length.
    + rewrite update_logs_nonempty by done. simpl.
      rewrite drop_past_own_length, app_nil_r. split; [done|].
      intros Hn. by destruct E.
Qed.

Lemma repeated_fetch_idempotent_witness :
  step (step (activate idle_tab) (Poll (Fetched [entry_a; entry_b])))
       (Poll (Fetched [entry_a; entry_b]))
  = step (activate idle_tab) (Poll (Fetched [entry_a; entry_b])).
Proof.
  apply (repeated_fetch_idempotent (activate idle_tab) (Fetched [entry_a; entry_b])).
  reflexivity.
Defined.

(** ** The label over a run *)

Section Label.

Implicit Types (st : State) (op : Op) (ops : list Op) (known all_logs : list LogEntry).

Lemma empty_slice_no_pending st all_logs :
  logs st ++ new_logs st `prefix_of` all_logs →
  drop (length (logs st)) all_logs = [] → new_logs st = [].
Proof.
  intros [k Hk] E. rewrite Hk, <- !app_assoc, drop_app_length in E.
  by apply app_eq_nil in E as [-> _].
Qed.

Lemma labelled_poll known all_logs st :
  in_sync known st → known `prefix_of` all_logs → labelled st →
  labelled (state_of (update_logs st (Fetched all_logs))).
Proof.
  intros [Hk _] Hp Hl. rewrite <- Hk in Hp.
  destruct (decide (drop (length (logs st)) all_logs = [])) as [E|E].
  - rewrite update_logs_empty by done. unfold labelled in *. simpl.
    by rewrite <- (empty_slice_no_pending st all_logs).
  - rewrite update_logs_nonempty by done. by destruct (active st).
Qed.

Lemma labelled_run known st ops :
  in_sync known st → append_only known ops = true → labelled st →
  labelled (run st ops).
Proof.
  revert known st.
  induction ops as [|[[all_logs|reason]| |] ops IH]; intros known st Hs Ha Hl;
    simpl in Ha; [done|rewrite run_cons..].
  - apply andb_prop in Ha as [Hp Ha]. apply bool_decide_eq_true in Hp.
    apply (IH all_logs); [by apply in_sync_poll with known|done|].
    by apply labelled_poll with known.
  - by apply (IH known).
  - apply (IH known); [by apply in_sync_activate|done|done].
  - by apply (IH known); [apply in_sync_deactivate|..].
Qed.

Lemma run_lambda_name st ops : lambda_name (run st ops) = lambda_name st.
Proof.
  revert st. induction ops as [|op ops IH]; intros st; [done|].
  rewrite run_cons, IH. destruct op as [[all_logs|reason]| |]; simpl; try done.
  destruct (decide (drop (length (logs st)) all_logs = [])) as [E|E].
  - by rewrite update_logs_empty.
  - rewrite update_logs_nonempty by done. by destruct (active st).
Qed.

End Label.

(** X7.  Over an append-only source, in a tab whose label starts as the
    function's name, the label is at every moment the rendering of the
    pending entries; so the tab that has the focus shows the bare name. *)
Theorem label_shows_pending (name : string) (active0 : bool) (ops : list Op) :
  append_only [] ops = true →
  let st := run (init name (Rich.plain name) active0) ops in
  label st = render_label name (new_logs st) ∧
  (active st = true → label st = Rich.plain name).
Proof.
  intros Ha st.
  assert (label st = render_label name (new_logs st)) as Hl.
  { pose proof (labelled_run [] (init name (Rich.plain name) active0) ops
                  (in_sync_init _ _ _) Ha eq_refl) as H.
    unfold labelled in H. by rewrite run_lambda_name in H. }
  split; [done|]. intros Hact. rewrite Hl. subst st.
  by rewrite (run_active_no_pending (init name (Rich.plain name) active0) ops).
Qed.

Lemma label_shows_pending_witness :
  label (run (init "fn" (Rich.plain "fn") false)
             [Poll (Fetched [entry_a]); Poll (Fetched [entry_a; entry_b])])
  = render_label "fn" [entry_a; entry_b].
Proof.
  apply (label_shows_pending "fn" false
           [Poll (Fetched [entry_a]); Poll (Fetched [entry_a; entry_b])]).
  reflexivity.
Defined.

(** ** Flushing before or after the entries arrive *)

Section Commute.

Implicit Types (st : State) (delta : list LogEntry) (deltas : list (list LogEntry)).

Lemma held_after_cycle st delta :
  let st' := step st (Poll (Fetched (logs st ++ new_logs st ++ delta))) in
  logs st' ++ new_logs st' = logs st ++ new_logs st ++ delta ∧
  active st' = active st.
Proof.
  simpl.
  assert (drop (length (logs st)) (logs st ++ new_logs st ++ delta)
          = new_logs st ++ delta) as E by by rewrite drop_app_length.
  destruct (decide (new_logs st ++ delta = [])) as [E0|E0].
  - rewrite update_logs_empty by congruence. simpl. by rewrite E0.
  - rewrite update_logs_nonempty by congruence. rewrite E.
    destruct (active st) eqn:Ha; simpl; by rewrite ?app_nil_r.
Qed.

Lemma held_after_arrivals st deltas :
  let st' := run st (arrivals (logs st ++ new_logs st) deltas) in
  logs st' ++ new_logs st' = (logs st ++ new_logs st) ++ concat deltas ∧
  active st' = active st.
Proof.
  revert st. induction deltas as [|delta deltas IH]; intros st; cbn [arrivals concat].
  - by rewrite app_nil_r.
  - rewrite run_cons, <- (app_assoc (logs st)).
    destruct (held_after_cycle st delta) as [Hh Ha].
    set (st1 := step st (Poll (Fetched (logs st ++ new_logs st ++ delta)))) in *.
    specialize (IH st1). cbn zeta in IH. rewrite Hh, Ha in IH.
    by rewrite <- !app_assoc in *.
Qed.

Lemma logs_activate st : logs (activate st) = logs st ++ new_logs st.
Proof. reflexivity. Qed.

End Commute.

(** X8.  It makes no difference to what ends up settled whether the tab is
    activated before the entries arrive or after: both ways the settled
    sequence is what the tab held, followed by the deltas in their order,
    with nothing lost and nothing twice. *)
Theorem flush_commutes_with_arrivals (st : State) (deltas : list (list LogEntry)) :
  let known := logs st ++ new_logs st in
  logs (activate (run st (arrivals known deltas))) = known ++ concat deltas ∧
  logs (run (activate st) (arrivals known deltas)) = known ++ concat deltas ∧
  new_logs (run (activate st) (arrivals known deltas)) = [].
Proof.
  intros known. subst known. split.
  - destruct (held_after_arrivals st deltas) as [Hh _].
    by rewrite logs_activate, Hh.
  - pose proof (held_after_arrivals (activate st) deltas) as H.
    cbn zeta in H.
    change (logs (activate st) ++ new_logs (activate st))
      with ((logs st ++ new_logs st) ++ []) in H.
    rewrite app_nil_r in H. destruct H as [Hh Ha].
    assert (new_logs (run (activate st)
                          (arrivals (logs st ++ new_logs st) deltas)) = []) as Hn.
    { apply run_active_no_pending; [done|]. by rewrite Ha. }
    rewrite Hn, app_nil_r in Hh. done.
Qed.

(** * Properties of the command line *)

Section Commands.

Import Cli.

Implicit Types (o : ProjectOptions) (calls : list Call).

Lemma available_services :
  AVALABLE_SERVICES =
  ["cognito"; "dynamo_db"; "event_bridge"; "kms"; "layers"; "s3";
   "secrets_manager"; "sns"; "sqs"; "state_machine"].
Proof. by vm_compute. Qed.

Lemma services_lookup (key with_service : string) :
  services !! key = Some with_service →
  (key, with_service) ∈
    [("sns", "with_sns"); ("layers", "with_layers"); ("dynamo_db", "with_dynamodb");
     ("s3", "with_s3"); ("event_bridge", "with_event_bridge"); ("sqs", "with_sqs");
     ("secrets_manager", "with_secrets_manager"); ("cognito", "with_cognito");
     ("kms", "with_kms")].
Proof. apply elem_of_list_to_map_2. Qed.

Lemma str_truthy_nonempty (s : string) : str_truthy s = true ↔ s ≠ "".
Proof. by destruct s. Qed.

Lemma or_else_nonempty (a : option string) (b : string) :
  b ≠ "" → or_else a b ≠ "".
Proof.
  intros Hb. destruct a as [s|]; simpl; [|done].
  destruct (str_truthy s) eqn:E; [|done]. by apply str_truthy_nonempty.
Qed.

End Commands.

(** X9.  [forge project] either raises its usage error before any builder is
    called, which happens exactly when the docs are wanted and no bucket is
    given, or makes the calls of [create_project]; in these the bucket
    handed to [with_cdk] is not empty whenever the docs are wanted. *)
Theorem project_docs_have_bucket (o : Cli.ProjectOptions) :
  match Cli.project o with
  | Cli.Raised e calls =>
      calls = [] ∧ Cli.no_docs o = false ∧ Cli.bucket o = "" ∧
      ∃ message, e = Cli.UsageError message
  | Cli.Done calls =>
      calls = Cli.create_project o ∧
      Cli.calls_to Cli.ProjectBuilder "with_cdk" calls =
        [[Cli.Str (Cli.repo_owner o); Cli.Str (Cli.repo_name o);
          Cli.Str (Cli.region o); Cli.Str (Cli.bucket o);
          Cli.Int (Cli.coverage o)]] ∧
      (Cli.no_docs o = false → Cli.bucket o ≠ "")
  end.
Proof.
  destruct o as [n ro rn nd ns np ndoc pd r b c]. unfold Cli.project. simpl.
  destruct ndoc, b as [|ch b]; simpl;
    try (by repeat split; eauto);
    (split; [done|]; split; [by destruct nd, ns, np, pd|done]).
Qed.

Lemma project_docs_have_bucket_witness :
  Cli.bucket Cli.sample_project ≠ "".
Proof.
  pose proof (project_docs_have_bucket Cli.sample_project) as H.
  simpl in H. destruct H as (_ & _ & H). by apply H.
Defined.

(** X10.  [create_project] generates the authorizer of the docs exactly when
    it tells [with_deploy_stage] to serve the docs behind the authorizer
    named docs; the authorizer is then generated in full, after the project
    has been built. *)
Theorem docs_authorizer_when_needed (o : Cli.ProjectOptions) :
  Cli.calls_to Cli.ProjectBuilder "with_deploy_stage" (Cli.create_project o) =
    [[Cli.Bool (negb (Cli.no_docs o));
      if Cli.public_docs o then Cli.PyNone else Cli.Str "docs"]] ∧
  Cli.chain_of Cli.AuthorizerBuilder (Cli.create_project o) =
    (if decide (Cli.calls_to Cli.ProjectBuilder "with_deploy_stage"
                  (Cli.create_project o)
                = [[Cli.Bool true; Cli.Str "docs"]])
     then Cli.docs_authorizer else []) ∧
  Cli.create_project o =
    Cli.chain_of Cli.ProjectBuilder (Cli.create_project o) ++
    Cli.chain_of Cli.AuthorizerBuilder (Cli.create_project o) ∧
  last (Cli.chain_of Cli.ProjectBuilder (Cli.create_project o))
  = Some (Cli.call Cli.ProjectBuilder "build" []).
Proof.
  destruct o as [n ro rn nd ns np ndoc pd r b c]. unfold Cli.create_project.
  simpl. by destruct nd, ns, np, ndoc, pd.
Qed.

(** X11.  Every builder a command starts is built exactly once: the calls on
    it begin with its constructor and end with its only [build]. *)
Theorem builders_built_once :
  (∀ o,
     Cli.built_once "a_project"
       (Cli.chain_of Cli.ProjectBuilder (Cli.create_project o)) = true ∧
     Cli.built_once "an_authorizer"
       (Cli.chain_of Cli.AuthorizerBuilder (Cli.create_project o)) = true) ∧
  (∀ name description http_method belongs endpoint no_api public calls,
     Cli.create_function name description http_method belongs endpoint no_api public
     = Cli.Done calls →
     Cli.built_once "a_function" (Cli.chain_of Cli.FunctionBuilder calls) = true) ∧
  (∀ name description default,
     Cli.built_once "an_authorizer"
       (Cli.chain_of Cli.AuthorizerBuilder
          (Cli.create_authorizer name description default)) = true) ∧
  (∀ service calls,
     Cli.create_service service = Cli.Done calls →
     Cli.built_once "a_service" (Cli.chain_of Cli.ServiceBuilder calls) = true) ∧
  (∀ name description install,
     Cli.built_once "a_layer"
       (Cli.chain_of Cli.LayerBuilder (Cli.create_layer name description install))
     = true).
Proof.
  repeat split.
  - destruct o as [n ro rn nd ns np ndoc pd r b c]. unfold Cli.create_project.
    simpl. by destruct nd, ns, np, ndoc, pd.
  - destruct o as [n ro rn nd ns np ndoc pd r b c]. unfold Cli.create_project.
    simpl. by destruct nd, ns, np, ndoc, pd.
  - intros name description http_method belongs endpoint no_api public calls.
    unfold Cli.create_function.
    destruct no_api, (Cli.truthy http_method); simpl; try done;
      by intros [= <-].
  - intros service calls. unfold Cli.create_service.
    destruct (Cli.services !! service) as [with_service|] eqn:E; [|done].
    intros [= <-]. apply services_lookup in E.
    repeat (apply elem_of_cons in E as [[= -> ->]|E]; [reflexivity|]).
    by apply elem_of_nil in E.
  - intros name description install. unfold Cli.create_layer.
    by destruct (Cli.truthy name), install.
Qed.

Lemma builders_built_once_witness :
  Cli.built_once "a_service"
    (Cli.chain_of Cli.ServiceBuilder
       [Cli.call Cli.ServiceBuilder "a_service" [];
        Cli.call Cli.ServiceBuilder "with_sqs" [];
        Cli.call Cli.ServiceBuilder "build" []]) = true.
Proof.
  destruct builders_built_once as (_ & _ & _ & H & _).
  apply (H "sqs"). reflexivity.
Defined.

(** X12.  [forge function] with an API: without a method (none, or the empty
    string) it raises its usage error before any builder is called; with a
    method it hands the upper-cased method both to [with_api] and to
    [with_integration], and to [with_endpoint] the first non-empty of the
    endpoint, the shared folder and the name, which is not empty when the
    name is not. *)
Theorem function_api_method
    (upper : string → string) (name description : string)
    (method belongs endpoint : option string) (public : bool) :
  (∀ s, s ≠ "" → upper s ≠ "") →
  match method with
  | Some m =>
      if Cli.str_truthy m then
        ∃ calls,
          Cli.function upper name description method belongs endpoint false public
          = Cli.Done calls ∧
          Cli.calls_to Cli.FunctionBuilder "with_api" calls
          = [[Cli.Str (upper m); Cli.Bool public]] ∧
          Cli.calls_to Cli.FunctionBuilder "with_integration" calls
          = [[Cli.Str (upper m)]] ∧
          Cli.calls_to Cli.FunctionBuilder "with_endpoint" calls
          = [[Cli.Str (Cli.or_else endpoint (Cli.or_else belongs name))]] ∧
          (name ≠ "" → Cli.or_else endpoint (Cli.or_else belongs name) ≠ "")
      else
        ∃ message,
          Cli.function upper name description method belongs endpoint false public
          = Cli.Raised (Cli.UsageError message) []
  | None =>
      ∃ message,
        Cli.function upper name description method belongs endpoint false public
        = Cli.Raised (Cli.UsageError message) []
  end.
Proof.
  intros Hupper. unfold Cli.function.
  destruct method as [m|]; [|by eexists].
  destruct (Cli.str_truthy m) eqn:Hm; [|by eexists].
  apply str_truthy_nonempty in Hm. apply Hupper, str_truthy_nonempty in Hm.
  unfold Cli.create_function. simpl. rewrite Hm. simpl.
  eexists. split; [done|]. repeat split.
  intros Hn. by do 2 apply or_else_nonempty.
Qed.

Lemma ascii_upper_nonempty (s : string) : s ≠ "" → Cli.ascii_upper s ≠ "".
Proof. by destruct s. Qed.

Lemma function_api_method_witness :
  ∃ calls,
    Cli.function Cli.ascii_upper "orders" "Lists the orders" (Some "get") None None
                 false true = Cli.Done calls ∧
    Cli.calls_to Cli.FunctionBuilder "with_api" calls
    = [[Cli.Str "GET"; Cli.Bool true]] ∧
    Cli.calls_to Cli.FunctionBuilder "with_endpoint" calls = [[Cli.Str "orders"]].
Proof.
  destruct (function_api_method Cli.ascii_upper "orders" "Lists the orders"
              (Some "get") None None true ascii_upper_nonempty)
    as (calls & H & Ha & _ & He & _).
  exists calls. split; [exact H|]. split; [exact Ha|exact He].
Defined.

(** X13.  [forge function --no-api] never raises and never touches the
    API: whatever the method, the endpoint and the public flag, it makes the
    same six calls, none of them [with_endpoint], [with_api] or
    [with_integration]. *)
Theorem function_without_api
    (upper : string → string) (name description : string)
    (method belongs endpoint : option string) (public : bool) :
  Cli.function upper name description method belongs endpoint true public =
  Cli.Done
    [Cli.call Cli.FunctionBuilder "a_function" [Cli.Str name; Cli.Str description];
     Cli.call Cli.FunctionBuilder "with_config" [Cli.opt belongs];
     Cli.call Cli.FunctionBuilder "with_unit" [];
     Cli.call Cli.FunctionBuilder "with_main" [];
     Cli.call Cli.FunctionBuilder "with_lambda_stack" [];
     Cli.call Cli.FunctionBuilder "build" []] ∧
  Cli.function upper name description method belongs endpoint true public =
  Cli.function upper name description None belongs None true false.
Proof. unfold Cli.function. by destruct method as [[|c m]|]. Qed.

(** X14.  The services [forge service] admits are the keys of the
    dictionary of [create_service] and, besides them, state_machine, for
    which the command raises [KeyError] after it has made the builder; for
    every other admitted service it makes the builder, calls the one method
    bound to the service and builds.  Any other value is rejected before
    [create_service]. *)
Theorem service_choices (service : string) :
  (service ∈ Cli.AVALABLE_SERVICES ↔
   is_Some (Cli.services !! service) ∨ service = "state_machine") ∧
  Cli.service "state_machine" =
    Cli.Raised (Cli.KeyError "state_machine")
               [Cli.call Cli.ServiceBuilder "a_service" []] ∧
  match Cli.services !! service with
  | Some with_service =>
      Cli.service service =
      Cli.Done [Cli.call Cli.ServiceBuilder "a_service" [];
                Cli.call Cli.ServiceBuilder with_service [];
                Cli.call Cli.ServiceBuilder "build" []]
  | None =>
      Cli.service service =
      if decide (service = "state_machine")
      then Cli.Raised (Cli.KeyError service)
                      [Cli.call Cli.ServiceBuilder "a_service" []]
      else Cli.Raised (Cli.BadParameter service) []
  end.
Proof.
  assert (service ∈ Cli.AVALABLE_SERVICES ↔
          is_Some (Cli.services !! service) ∨ service = "state_machine") as Hiff.
  { rewrite available_services. split.
    - intros H.
      repeat (apply elem_of_cons in H as [->|H];
              [first [by (left; vm_compute; eexists) | by right]|]).
      by apply elem_of_nil in H.
    - intros [[with_service H]| ->].
      + apply services_lookup in H.
        repeat (apply elem_of_cons in H as [[= -> ->]|H];
                [by repeat (apply list_elem_of_here || apply list_elem_of_further)|]).
        by apply elem_of_nil in H.
      + by repeat (apply list_elem_of_here || apply list_elem_of_further). }
  split; [done|]. split; [by vm_compute|].
  unfold Cli.service, Cli.create_service.
  destruct (Cli.services !! service) as [with_service|] eqn:E.
  - rewrite decide_True; [done|]. apply Hiff. left. by eexists.
  - destruct (decide (service = "state_machine")) as [->|Hne].
    + by vm_compute.
    + rewrite decide_False; [done|]. rewrite Hiff. intros [[? ?]|?]; done.
Qed.

Lemma service_choices_witness :
  Cli.service "sqs" =
  Cli.Done [Cli.call Cli.ServiceBuilder "a_service" [];
            Cli.call Cli.ServiceBuilder "with_sqs" [];
            Cli.call Cli.ServiceBuilder "build" []].
Proof.
  destruct (service_choices "sqs") as (_ & _ & H). exact H.
Defined.
